(** * Word classifier of [final_export.py]

    A shallow embedding of [classify_word] (dictionary lookup followed by a
    scan of the dictionary for an entry one edit away), of the hard-coded
    reference dictionary [CORRECT_WORDS], and of the edit distance the
    classifier imports, with the properties of the written specification
    proved against them; then of the tokenizer of [get_unique_vocabulary]
    and of the classification loop of [main], with the properties the code
    itself shows. *)

From Stdlib Require Import String.
From stdpp Require Import base numbers list sets gmap.

Local Open Scope nat_scope.

(** ** Data model *)

(** A Python [str] is a sequence of Unicode code points; a code point is a
    number in [0, 0x10FFFF].  Nothing in the classifier looks inside a code
    point, it only compares them. *)
Abbreviation codepoint := N (only parsing).
Abbreviation str := (list N) (only parsing).

(** The two values [classify_word] returns are Python string literals. *)
Definition CorrectSpelling : string := "correct spelling"%string.
Definition IncorrectSpelling : string := "incorrect spelling"%string.

(** ** The imported edit distance *)

Module Levenshtein.

Definition subst_cost (c1 c2 : codepoint) : nat :=
  if (c1 =? c2)%N then 0 else 1.

Definition min3 (a b c : nat) : nat := Nat.min (Nat.min a b) c.

(** Cells 1.. of the table row of [c1]: [prev] is the suffix of the
    previous row that starts at the diagonal cell, [left] the cell just
    written in the current row. *)
Fixpoint fill_row (c1 : codepoint) (s2 : str) (prev : list nat) (left : nat)
  : list nat :=
  match s2, prev with
  | c2 :: s2', diag :: ((up :: _) as prev') =>
      let cell := min3 (up + 1) (left + 1) (diag + subst_cost c1 c2) in
      cell :: fill_row c1 s2' prev' cell
  | _, _ => []
  end.

(** The row of [c1] from the row above it: cell 0 is one deletion more
    than the cell above. *)
Definition next_row (s2 : str) (prev : list nat) (c1 : codepoint) : list nat :=
  let first := hd 0 prev + 1 in
  first :: fill_row c1 s2 prev first.

(** Row 0 of the table: the distances from the empty prefix. *)
Definition first_row (s2 : str) : list nat := seq 0 (S (length s2)).

Definition table_last_row (s1 s2 : str) : list nat :=
  fold_left (next_row s2) s1 (first_row s2).

(** Modelled from the spec: [distance] is imported from the third-party
    [Levenshtein] package ([from Levenshtein import distance]), whose code
    is not part of the repository.  The specification asks for the
    standard Levenshtein distance, a dynamic-programming table over the
    two strings measured in code points with unit cost for insertion,
    deletion and substitution; this is that table, filled row by row, and
    the answer is its bottom-right cell. *)
Definition distance (s1 s2 : str) : nat :=
  List.last (table_last_row s1 s2) 0.

End Levenshtein.

(** ** The reference dictionary *)

Definition HINDI_CORE_WORDS_literal : list str := [
  [2348; 2366; 2340];                          (* बात *)
  [2361; 2379; 2340; 2366];                    (* होता *)
  [2325; 2367];                                (* कि *)
  [2332; 2344; 2332; 2366; 2340; 2367];        (* जनजाति *)
  [2346; 2376; 2360; 2366];                    (* पैसा *)
  [2354; 2379; 2327];                          (* लोग *)
  [2342; 2375; 2326; 2344; 2366];              (* देखना *)
  [2341; 2366];                                (* था *)
  [2309; 2348];                                (* अब *)
  [2309; 2330; 2381; 2331; 2366];              (* अच्छा *)
  [2325; 2366; 2352; 2339];                    (* कारण *)
  [2332; 2368; 2357; 2344];                    (* जीवन *)
  [2360; 2361; 2368];                          (* सही *)
  [2325; 2367; 2340; 2366; 2348];              (* किताब *)
  [2360; 2381; 2325; 2370; 2354];              (* स्कूल *)
  [2313; 2343; 2352];                          (* उधर *)
  [2313; 2344; 2381; 2361; 2375; 2306];        (* उन्हें *)
  [2313; 2344; 2325; 2379];                    (* उनको *)
  [2330; 2366; 2361; 2367; 2319];              (* चाहिए *)
  [2325; 2369; 2331];                          (* कुछ *)
  [2350; 2376; 2350];                          (* मैम *)
  [2342; 2375; 2358];                          (* देश *)
  [2349; 2366; 2352; 2340];                    (* भारत *)
  [2330; 2366; 2361; 2340; 2375];              (* चाहते *)
  [2357; 2361; 2366; 2306];                    (* वहां *)
  [2340; 2352; 2347];                          (* तरफ *)
  [2325; 2366; 2350]                           (* काम *)
]%N.

Definition CODE_SWITCHED_WORDS_literal : list str := [
  [2346; 2381; 2352; 2379; 2332; 2375; 2325; 2381; 2335];        (* प्रोजेक्ट *)
  [2319; 2352; 2367; 2351; 2366];                                (* एरिया *)
  [2319; 2335; 2368; 2335; 2381; 2351; 2370; 2337];              (* एटीट्यूड *)
  [2350; 2376; 2344; 2375; 2332; 2352];                          (* मैनेजर *)
  [2335; 2375; 2325; 2381; 2344; 2379; 2354; 2377; 2332; 2368];  (* टेक्नोलॉजी *)
  [2311; 2306; 2335; 2352; 2344; 2375; 2335];                    (* इंटरनेट *)
  [2325; 2306; 2346; 2381; 2351; 2370; 2335; 2352];              (* कंप्यूटर *)
  [2337; 2375; 2335; 2366];                                      (* डेटा *)
  [2347; 2366; 2311; 2354];                                      (* फाइल *)
  [2325; 2350; 2375; 2306; 2335];                                (* कमेंट *)
  [2354; 2376; 2346; 2335; 2377; 2346];                          (* लैपटॉप *)
  [2360; 2381; 2335; 2370; 2337; 2375; 2306; 2335];              (* स्टूडेंट *)
  [2335; 2381; 2352; 2376; 2347; 2367; 2325];                    (* ट्रैफिक *)
  [2335; 2377; 2346; 2367; 2325];                                (* टॉपिक *)
  [2325; 2381; 2354; 2366; 2360; 2375; 2360];                    (* क्लासेस *)
  [2311; 2350; 2381; 2346; 2381; 2352; 2370; 2357; 2350; 2375; 2306; 2335]
                                                                 (* इम्प्रूवमेंट *)
]%N.

(** A set display [{a, b, ...}] builds the set of the listed strings. *)
Definition HINDI_CORE_WORDS : gset str := list_to_set HINDI_CORE_WORDS_literal.
Definition CODE_SWITCHED_WORDS : gset str := list_to_set CODE_SWITCHED_WORDS_literal.
Definition CORRECT_WORDS : gset str := HINDI_CORE_WORDS ∪ CODE_SWITCHED_WORDS.

(** ** Computations over the dictionary object *)

(** [correct_set] is passed to [classify_word] by reference, so a call could
    change it.  A computation therefore takes the contents of the set object
    and returns its value together with the contents it leaves behind. *)
Definition Run (A : Type) : Type := gset str → A * gset str.

#[global] Instance Run_ret : MRet Run := λ A (a : A) σ, (a, σ).
#[global] Instance Run_bind : MBind Run :=
  λ A B (k : A → Run B) (m : Run A) σ, k (m σ).1 (m σ).2.

(** The value a computation returns, and the set it leaves behind. *)
Definition value {A} (m : Run A) (σ : gset str) : A := (m σ).1.
Definition final_set {A} (m : Run A) (σ : gset str) : gset str := (m σ).2.

Section Classifier.

(** The imported [distance], a function from two strings to a number. *)
Variable distance : str → str → nat.

(** Python promises no order for the iteration of a set, and for strings
    the order changes from one process to the next (hashes are salted).
    [traversal V] is the order in which this run yields the members of a
    set with contents [V]. *)
Variable traversal : gset str → list str.

(** [word in correct_set] *)
Definition set_contains (word : str) : Run bool :=
  λ σ, (bool_decide (word ∈ σ), σ).

(** The sequence [for correct_word in correct_set] goes through. *)
Definition set_iter : Run (list str) :=
  λ σ, (traversal σ, σ).

(** The [for] loop of [classify_word] over the words still to visit:
    [is_typo] is set and the loop left at the first word within the bound;
    when the words run out [is_typo] keeps its value. *)
Fixpoint typo_loop (word : str) (MAX_EDIT_DISTANCE : nat)
    (rest : list str) (is_typo : bool) : bool :=
  match rest with
  | [] => is_typo
  | correct_word :: rest' =>
      if distance word correct_word <=? MAX_EDIT_DISTANCE
      then true
      else typo_loop word MAX_EDIT_DISTANCE rest' is_typo
  end.

(** Lines 77-84: the search the specification calls
    [hasNeighborWithinDistance]. *)
Definition hasNeighborWithinDistance (word : str) (maxDistance : nat)
  : Run bool :=
  let is_typo := false in
  words ← set_iter;
  mret (typo_loop word maxDistance words is_typo).

Definition classify_word (word : str) : Run string :=
  set_contains word ≫= λ found : bool,
  if found then mret CorrectSpelling
  else
    let MAX_EDIT_DISTANCE := 1 in
    hasNeighborWithinDistance word MAX_EDIT_DISTANCE ≫= λ is_typo : bool,
    if is_typo then mret IncorrectSpelling
    else mret IncorrectSpelling.

(** The loop of [main] (lines 108-114): every word is classified against
    the same set object, one call after the other, and the results are
    appended in that order. *)
Fixpoint classify_all (all_unique_words : list str)
  : Run (list (str * string)) :=
  match all_unique_words with
  | [] => mret []
  | word :: rest =>
      classify_word word ≫= λ classification : string,
      classify_all rest ≫= λ results : list (str * string),
      mret ((word, classification) :: results)
  end.

End Classifier.

(** A traversal is an iteration order when it yields every member of the
    set exactly once. *)
Definition iteration_order (traversal : gset str → list str) : Prop :=
  ∀ V : gset str, traversal V ≡ₚ elements V.

(** ** Reference definitions of the edit distance *)

Module Reference.

Import Levenshtein.

(** The textbook recurrence on the first characters of the two strings. *)
Fixpoint lev (s t : str) : nat :=
  match s with
  | [] => length t
  | a :: s' =>
      (fix lev_s (t : str) : nat :=
         match t with
         | [] => length s
         | b :: t' =>
             min3 (S (lev s' t)) (S (lev_s t')) (lev s' t' + subst_cost a b)
         end) t
  end.

(** What the recurrence predicts for a stretch of a table row: the
    distances from [u], the part of the first string read so far (last
    character first), to the prefixes of the second string that end in
    the columns of [t], the columns of [q] lying before them. *)
Definition row_from (u q t : str) : list nat :=
  map (λ k, lev u (rev (q ++ take k t))) (seq 0 (S (length t))).

(** One single-character edit, anywhere in the string: a code point is
    inserted, deleted, or replaced by a different one. *)
Inductive edit : str → str → Prop :=
| edit_insert (p q : str) (c : codepoint) :
    edit (p ++ q) (p ++ c :: q)
| edit_delete (p q : str) (c : codepoint) :
    edit (p ++ c :: q) (p ++ q)
| edit_substitute (p q : str) (c c' : codepoint) :
    c ≠ c' → edit (p ++ c :: q) (p ++ c' :: q).

(** [transforms n s t]: [n] edits, one after the other, turn [s] into [t]. *)
Inductive transforms : nat → str → str → Prop :=
| transforms_refl (s : str) : transforms 0 s s
| transforms_step (n : nat) (s t u : str) :
    transforms n s t → edit t u → transforms (S n) s u.

(** The cost of an alignment of two strings read from left to right: a
    code point is kept or replaced (cost 0 or 1), a code point of the
    second string is inserted, or one of the first is deleted. *)
Inductive aligned : str → str → nat → Prop :=
| aligned_nil : aligned [] [] 0
| aligned_pair (a b : codepoint) (s t : str) (n : nat) :
    aligned s t n → aligned (a :: s) (b :: t) (n + subst_cost a b)
| aligned_insert (b : codepoint) (s t : str) (n : nat) :
    aligned s t n → aligned s (b :: t) (S n)
| aligned_delete (a : codepoint) (s t : str) (n : nat) :
    aligned s t n → aligned (a :: s) t (S n).

End Reference.

(** ** The tokenizer of [get_unique_vocabulary] *)

Section Tokenizer.

(** The interpreter's table of white space characters: the regular
    expression class [\s] and [str.strip()] both consult it. *)
Variable isspace : codepoint → bool.

(** The interpreter's table of digit characters, behind [str.isdigit()]. *)
Variable isdigit_char : codepoint → bool.

(** The characters of the class [[\s\.,?!।—\-\…]] of [word_splitter]:
    white space, full stop, comma, question mark, exclamation mark, danda,
    em dash, hyphen and ellipsis. *)
Definition is_delimiter (c : codepoint) : bool :=
  isspace c ||
  existsb (N.eqb c) [46; 44; 63; 33; 2404; 8212; 45; 8230]%N.

(** [word_splitter.split(text)]: the pieces of [text] between the maximal
    runs of delimiters.  [in_run] tells that the character before was a
    delimiter; a piece ends where a run starts, and the text before the
    first run and after the last one are pieces too, empty or not. *)
Fixpoint split_go (in_run : bool) (text : str) : list str :=
  match text with
  | [] => [[]]
  | c :: rest =>
      if is_delimiter c then
        if in_run then split_go true rest
        else [] :: split_go true rest
      else
        match split_go false rest with
        | piece :: pieces => (c :: piece) :: pieces
        | [] => [[c]]
        end
  end.

Definition word_splitter_split (text : str) : list str := split_go false text.

(** [str.strip()]: white space removed at both ends. *)
Fixpoint lstrip (s : str) : str :=
  match s with
  | [] => []
  | c :: rest => if isspace c then lstrip rest else s
  end.

Definition rstrip (s : str) : str := rev (lstrip (rev s)).

Definition strip (s : str) : str := rstrip (lstrip s).

(** [str.isdigit()]: at least one character, and all of them digits. *)
Definition isdigit (s : str) : bool :=
  match s with
  | [] => false
  | _ :: _ => forallb isdigit_char s
  end.

(** The closing bracket that ends a non-speech artifact opened by [c]:
    the three alternatives of [\[.*?\]|\(.*?\)|\<.*?\>] start with
    different characters. *)
Definition closer (c : codepoint) : option codepoint :=
  if (c =? 91)%N then Some 93%N
  else if (c =? 40)%N then Some 41%N
  else if (c =? 60)%N then Some 62%N
  else None.

(** Whether [.*?] followed by the bracket [close] matches at the start of
    [text]: the bracket has to come before any line feed, which [.] does
    not match. *)
Fixpoint closes (close : codepoint) (text : str) : bool :=
  match text with
  | [] => false
  | c :: rest =>
      if (c =? close)%N then true
      else if (c =? 10)%N then false
      else closes close rest
  end.

(** [re.sub(r'\[.*?\]|\(.*?\)|\<.*?\>', ' ', text)], scanning from the
    left.  Outside a match an opening bracket whose closing bracket follows
    on the same line starts a match and a space is written for it; any
    other character is copied.  Inside a match ([skip_to] holds the bracket
    awaited) characters are dropped up to and including that bracket. *)
Fixpoint sub_go (skip_to : option codepoint) (text : str) : str :=
  match text with
  | [] => []
  | c :: rest =>
      match skip_to with
      | Some close =>
          if (c =? close)%N then sub_go None rest else sub_go skip_to rest
      | None =>
          match closer c with
          | Some close =>
              if closes close rest then 32%N :: sub_go (Some close) rest
              else c :: sub_go None rest
          | None => c :: sub_go None rest
          end
      end
  end.

Definition remove_artifacts (text : str) : str := sub_go None text.

(** Lines 57-59: one piece of the split, stripped, joins [words] unless it
    is empty or a number. *)
Definition add_word (words : gset str) (word : str) : gset str :=
  let cleaned_word := strip word in
  if negb (bool_decide (cleaned_word = [])) && negb (isdigit cleaned_word)
  then {[ cleaned_word ]} ∪ words
  else words.

(** Lines 54-59: the words of the text of one segment. *)
Definition add_text_words (words : gset str) (text : str) : gset str :=
  let text := remove_artifacts text in
  fold_left add_word (word_splitter_split text) words.

(** [get_unique_vocabulary].  Reading the file and decoding its lines as
    JSON are left to the caller of the model: [manifest] is [None] when the
    file does not exist ([FileNotFoundError], the empty set is returned),
    and otherwise the [text] fields of the segments in the order of the
    lines. *)
Definition get_unique_vocabulary (manifest : option (list str)) : gset str :=
  match manifest with
  | None => ∅
  | Some texts => fold_left add_text_words texts ∅
  end.

End Tokenizer.

(** ** The classification loop of [main] *)

Section MainLoop.

Variable distance : str → str → nat.
Variable traversal : gset str → list str.

(** Lines 108-117 over the words still to come: the row of the word is
    appended to [results] and [correct_count] goes up by one when the label
    is ["correct spelling"]. *)
Fixpoint main_loop (all_unique_words : list str)
    (results : list (str * string)) (correct_count : nat)
  : Run (list (str * string) * nat) :=
  match all_unique_words with
  | [] => mret (results, correct_count)
  | word :: rest =>
      classify_word distance traversal word ≫= λ classification : string,
      let results := results ++ [(word, classification)] in
      let correct_count :=
        if String.eqb classification "correct spelling"
        then correct_count + 1 else correct_count in
      main_loop rest results correct_count
  end.

(** Lines 103-117: [results] starts empty and [correct_count] at 0, and the
    words are the members of the set [all_unique_words] in the order the
    iteration yields them. *)
Definition classify_vocabulary (all_unique_words : list str)
  : Run (list (str * string) * nat) :=
  main_loop all_unique_words [] 0.

End MainLoop.

(** A text of words separated by single spaces. *)
Fixpoint join_spaces (words : list str) : str :=
  match words with
  | [] => []
  | [w] => w
  | w :: rest => w ++ 32%N :: join_spaces rest
  end.

(** A text is settled when none of its opening brackets is followed by its
    closing bracket on the same line. *)
Fixpoint settled (text : str) : bool :=
  match text with
  | [] => true
  | c :: rest =>
      match closer c with
      | Some close => negb (closes close rest) && settled rest
      | None => settled rest
      end
  end.

(** The state of the scan is sound when the bracket it waits for does come
    before the end of the line. *)
Definition awaited (st : option codepoint) (text : str) : Prop :=
  ∀ close, st = Some close → closes close text = true ∧ close ≠ 10%N.

(** The label the dictionary lookup alone gives a word. *)
Definition lookup_label (V : gset str) (word : str) : string :=
  if bool_decide (word ∈ V) then CorrectSpelling else IncorrectSpelling.

(** A word the tokenizer passes on as it is: not empty, free of delimiters
    and of opening brackets, and not a number. *)
Definition plain_word (isspace isdigit_char : codepoint → bool) (w : str)
  : Prop :=
  w ≠ [] ∧
  Forall (λ c, is_delimiter isspace c = false ∧ closer c = None) w ∧
  isdigit isdigit_char w = false.

(** ** Properties of the classifier *)

Section ClassifierFacts.

Variable distance : str → str → nat.
Variable traversal : gset str → list str.

(** Unfolding of a call: the lookup decides the label, and the set object
    comes back as it went in. *)
Lemma classify_word_run (word : str) (V : gset str) :
  classify_word distance traversal word V =
    (if bool_decide (word ∈ V) then CorrectSpelling else IncorrectSpelling, V).
Proof.
  unfold classify_word, hasNeighborWithinDistance, set_contains, set_iter,
    mbind, mret, Run_bind, Run_ret; simpl.
  destruct (bool_decide (word ∈ V)); simpl; [reflexivity|].
  destruct (typo_loop distance word 1 (traversal V) false); reflexivity.
Qed.

Lemma hasNeighborWithinDistance_run (word : str) (d : nat) (V : gset str) :
  hasNeighborWithinDistance distance traversal word d V =
    (typo_loop distance word d (traversal V) false, V).
Proof. reflexivity. Qed.

(** The loop answers [true] exactly when a visited word is within the
    bound, or [is_typo] was already set. *)
Lemma typo_loop_true (word : str) (d : nat) (l : list str) (b : bool) :
  typo_loop distance word d l b = true ↔
  b = true ∨ ∃ v, v ∈ l ∧ distance word v ≤ d.
Proof.
  induction l as [|v l IH]; simpl.
  - split; [auto|]. intros [H|(v & Hv & _)]; [exact H|].
    apply elem_of_nil in Hv; contradiction.
  - destruct (distance word v <=? d) eqn:E.
    + apply Nat.leb_le in E. split; [|reflexivity].
      intros _. right. exists v. split; [apply list_elem_of_here|exact E].
    + apply Nat.leb_gt in E. rewrite IH. split.
      * intros [H|(u & Hu & Hd)]; [left; exact H|].
        right. exists u. split; [apply list_elem_of_further; exact Hu|exact Hd].
      * intros [H|(u & Hu & Hd)]; [left; exact H|].
        apply elem_of_cons in Hu as [->|Hu]; [lia|].
        right. exists u. split; assumption.
Qed.

Lemma classify_all_final_set (words : list str) (V : gset str) :
  final_set (classify_all distance traversal words) V = V.
Proof.
  unfold final_set. induction words as [|w ws IH]; simpl; [reflexivity|].
  unfold mbind, Run_bind, mret, Run_ret. simpl.
  rewrite classify_word_run. simpl. exact IH.
Qed.

End ClassifierFacts.

Lemma iteration_order_elem_of (traversal : gset str → list str) :
  iteration_order traversal →
  ∀ (V : gset str) (v : str), v ∈ traversal V ↔ v ∈ V.
Proof.
  intros Hord V v. rewrite (Hord V). apply elem_of_elements.
Qed.

Lemma iteration_order_elements : iteration_order elements.
Proof. intros V. reflexivity. Qed.

(** C1: a token that is a member of the vocabulary is classified
    [CorrectSpelling], whatever the edit distance says about it: the lookup
    comes first and the distance is never consulted. *)
Theorem classify_member_correct
    (distance : str → str → nat) (traversal : gset str → list str)
    (t : str) (V : gset str) :
  t ∈ V →
  value (classify_word distance traversal t) V = CorrectSpelling.
Proof.
  intros Hin. unfold value. rewrite classify_word_run. simpl.
  rewrite bool_decide_eq_true_2 by exact Hin. reflexivity.
Qed.

(** Scenario A of the specification: vocabulary {"बात", "काम"}, input "बात". *)
Lemma classify_member_correct_witness :
  value (classify_word Levenshtein.distance elements [2348; 2366; 2340]%N)
        ({[ [2348; 2366; 2340]%N; [2325; 2366; 2350]%N ]} : gset str)
  = CorrectSpelling.
Proof.
  apply (classify_member_correct Levenshtein.distance elements).
  apply elem_of_union_l, elem_of_singleton. reflexivity.
Defined.

(** C2: a token that is not a member of the vocabulary is classified
    [IncorrectSpelling], both when the scan finds an entry within distance 1
    and when it finds none; the empty vocabulary is an instance. *)
Theorem classify_non_member_incorrect
    (distance : str → str → nat) (traversal : gset str → list str)
    (t : str) (V : gset str) :
  t ∉ V →
  value (classify_word distance traversal t) V = IncorrectSpelling.
Proof.
  intros Hnin. unfold value. rewrite classify_word_run. simpl.
  rewrite bool_decide_eq_false_2 by exact Hnin. reflexivity.
Qed.

(** Scenario B of the specification: vocabulary {"काम"}, input "कम". *)
Lemma classify_non_member_incorrect_witness :
  value (classify_word Levenshtein.distance elements [2325; 2350]%N)
        ({[ [2325; 2366; 2350]%N ]} : gset str)
  = IncorrectSpelling.
Proof.
  apply (classify_non_member_incorrect Levenshtein.distance elements).
  intros H. apply elem_of_singleton in H. discriminate H.
Defined.

(** C3: [classify_word] has no failing branch: for every token (the empty
    one and one-character ones included) and every finite vocabulary the
    call returns, and what it returns is one of the two labels. *)
Theorem classify_total
    (distance : str → str → nat) (traversal : gset str → list str)
    (t : str) (V : gset str) :
  ∃ (label : string) (V' : gset str),
    classify_word distance traversal t V = (label, V') ∧
    (label = CorrectSpelling ∨ label = IncorrectSpelling).
Proof.
  rewrite classify_word_run.
  destruct (bool_decide (t ∈ V)); eexists _, _; split; eauto.
Qed.

(** C4: classification is deterministic.  Two calls on the same token and
    vocabulary return the same label although the two runs may go through
    the set in different orders, and although any number of words may have
    been classified against the same set object before the second call. *)
Theorem classify_deterministic
    (distance : str → str → nat) (traversal1 traversal2 : gset str → list str)
    (t : str) (V : gset str) (earlier : list str) :
  iteration_order traversal1 →
  iteration_order traversal2 →
  value (classify_word distance traversal1 t) V =
  value (classify_word distance traversal2 t)
        (final_set (classify_all distance traversal2 earlier) V).
Proof.
  intros _ _. rewrite classify_all_final_set.
  unfold value. rewrite !classify_word_run. reflexivity.
Qed.

(** Two runs on {"काम", "बात"} and "कम": one in the order of [elements],
    the other in the reverse order and after two earlier calls. *)
Lemma classify_deterministic_witness :
  let V : gset str := {[ [2325; 2366; 2350]%N; [2348; 2366; 2340]%N ]} in
  value (classify_word Levenshtein.distance elements [2325; 2350]%N) V =
  value (classify_word Levenshtein.distance (λ V, reverse (elements V))
           [2325; 2350]%N)
        (final_set (classify_all Levenshtein.distance
                      (λ V, reverse (elements V))
                      [[2348; 2366; 2340]%N; [120; 121]%N]) V).
Proof.
  intros V.
  apply (classify_deterministic Levenshtein.distance elements
           (λ V, reverse (elements V))).
  - intros W. reflexivity.
  - intros W. apply reverse_Permutation.
Defined.

(** C5: the bounded neighbour search is an existential query.  It answers
    [true] exactly when some member of the vocabulary is within the bound,
    it gives the same answer in whatever order the members are visited, and
    it leaves the vocabulary as it was. *)
Theorem hasNeighborWithinDistance_exists
    (distance : str → str → nat) (traversal1 traversal2 : gset str → list str)
    (t : str) (d : nat) (V : gset str) :
  iteration_order traversal1 →
  iteration_order traversal2 →
  (value (hasNeighborWithinDistance distance traversal1 t d) V = true ↔
     ∃ v, v ∈ V ∧ distance t v ≤ d) ∧
  value (hasNeighborWithinDistance distance traversal1 t d) V =
    value (hasNeighborWithinDistance distance traversal2 t d) V ∧
  final_set (hasNeighborWithinDistance distance traversal1 t d) V = V.
Proof.
  intros H1 H2.
  assert (Hiff : ∀ tr, iteration_order tr →
            (typo_loop distance t d (tr V) false = true ↔
             ∃ v, v ∈ V ∧ distance t v ≤ d)).
  { intros tr Htr. rewrite typo_loop_true. split.
    - intros [H|(v & Hv & Hd)]; [discriminate H|].
      exists v. split; [|exact Hd].
      apply (iteration_order_elem_of tr Htr); exact Hv.
    - intros (v & Hv & Hd). right. exists v. split; [|exact Hd].
      apply (iteration_order_elem_of tr Htr); exact Hv. }
  unfold value, final_set. rewrite !hasNeighborWithinDistance_run. simpl.
  split; [exact (Hiff traversal1 H1)|]. split; [|reflexivity].
  apply eq_true_iff_eq.
  rewrite (Hiff traversal1 H1), (Hiff traversal2 H2). reflexivity.
Qed.

(** The search for "कम" within distance 1 in {"काम", "बात"}, visited in the
    order of [elements] and in the reverse order. *)
Lemma hasNeighborWithinDistance_exists_witness :
  let V : gset str := {[ [2325; 2366; 2350]%N; [2348; 2366; 2340]%N ]} in
  let t : str := [2325; 2350]%N in
  (value (hasNeighborWithinDistance Levenshtein.distance elements t 1) V = true ↔
     ∃ v, v ∈ V ∧ Levenshtein.distance t v ≤ 1) ∧
  value (hasNeighborWithinDistance Levenshtein.distance elements t 1) V =
    value (hasNeighborWithinDistance Levenshtein.distance
             (λ V, reverse (elements V)) t 1) V ∧
  final_set (hasNeighborWithinDistance Levenshtein.distance elements t 1) V = V.
Proof.
  intros V t.
  apply (hasNeighborWithinDistance_exists Levenshtein.distance elements
           (λ V, reverse (elements V))).
  - intros W. reflexivity.
  - intros W. apply reverse_Permutation.
Defined.

(** C9: classification leaves the vocabulary as it found it: the set object
    after the call has exactly the contents it had before. *)
Theorem classify_preserves_vocabulary
    (distance : str → str → nat) (traversal : gset str → list str)
    (t : str) (V : gset str) :
  final_set (classify_word distance traversal t) V = V.
Proof.
  unfold final_set. rewrite classify_word_run. reflexivity.
Qed.

(** ** The table computes the recurrence *)

Module TableFacts.

Import Levenshtein Reference.

Lemma lev_nil_r (s : str) : lev s [] = length s.
Proof. destruct s; reflexivity. Qed.

Lemma lev_cons (a b : codepoint) (s t : str) :
  lev (a :: s) (b :: t) =
    min3 (S (lev s (b :: t))) (S (lev (a :: s) t)) (lev s t + subst_cost a b).
Proof. reflexivity. Qed.

Lemma lev_cons_cell (a b : codepoint) (s t : str) :
  min3 (lev s (b :: t) + 1) (lev (a :: s) t + 1) (lev s t + subst_cost a b) =
    lev (a :: s) (b :: t).
Proof. rewrite lev_cons, !Nat.add_1_r. reflexivity. Qed.

Lemma map_seq_S {A} (f : nat → A) (start len : nat) :
  map f (seq (S start) len) = map (λ k, f (S k)) (seq start len).
Proof. rewrite <- List.seq_shift, List.map_map. reflexivity. Qed.

Lemma row_from_cons (u q : str) (c : codepoint) (t : str) :
  row_from u q (c :: t) = lev u (rev q) :: row_from u (q ++ [c]) t.
Proof.
  unfold row_from. cbn [length]. rewrite <- cons_seq. cbn [map take].
  rewrite app_nil_r. f_equal.
  rewrite map_seq_S. apply List.map_ext. intros k.
  cbn [take]. rewrite <- app_assoc. reflexivity.
Qed.

Lemma row_from_hd (u q t : str) :
  row_from u q t = lev u (rev q) :: tail (row_from u q t).
Proof.
  unfold row_from. rewrite <- cons_seq. cbn [map tail take].
  rewrite app_nil_r. reflexivity.
Qed.

Lemma fill_row_cons (c1 c2 : codepoint) (s2 : str)
    (diag up : nat) (prev : list nat) (left : nat) :
  fill_row c1 (c2 :: s2) (diag :: up :: prev) left =
    min3 (up + 1) (left + 1) (diag + subst_cost c1 c2)
    :: fill_row c1 s2 (up :: prev)
         (min3 (up + 1) (left + 1) (diag + subst_cost c1 c2)).
Proof. reflexivity. Qed.

Lemma fill_row_lev (c1 : codepoint) (u : str) (t q : str) :
  fill_row c1 t (row_from u q t) (lev (c1 :: u) (rev q)) =
    tail (row_from (c1 :: u) q t).
Proof.
  revert q. induction t as [|c2 t IH]; intros q.
  - reflexivity.
  - rewrite !row_from_cons. cbn [tail].
    rewrite (row_from_hd u (q ++ [c2]) t), fill_row_cons.
    rewrite <- (row_from_hd u (q ++ [c2]) t).
    rewrite (row_from_hd (c1 :: u) (q ++ [c2]) t), <- IH.
    rewrite rev_app_distr. cbn [rev app].
    rewrite lev_cons_cell. reflexivity.
Qed.

Lemma next_row_lev (s2 : str) (u : str) (c1 : codepoint) :
  next_row s2 (row_from u [] s2) c1 = row_from (c1 :: u) [] s2.
Proof.
  unfold next_row.
  assert (Hhd : hd 0 (row_from u [] s2) + 1 = lev (c1 :: u) (rev [])).
  { unfold row_from. cbn [seq map hd take app rev].
    rewrite lev_nil_r. cbn [rev]. rewrite lev_nil_r. cbn [length]. lia. }
  rewrite Hhd, fill_row_lev.
  unfold row_from. cbn [seq map tail take app]. reflexivity.
Qed.

Lemma first_row_lev (s2 : str) : first_row s2 = row_from [] [] s2.
Proof.
  unfold first_row, row_from.
  rewrite <- (List.map_id (seq 0 (S (length s2)))) at 1.
  apply List.map_ext_in. intros k Hk. apply in_seq in Hk.
  cbn [app lev]. rewrite length_rev, length_take. lia.
Qed.

Lemma table_rows_lev (s2 : str) (s u : str) :
  fold_left (next_row s2) s (row_from u [] s2) = row_from (rev s ++ u) [] s2.
Proof.
  revert u. induction s as [|a s IH]; intros u; [reflexivity|].
  cbn [fold_left rev]. rewrite next_row_lev, IH, <- app_assoc. reflexivity.
Qed.

(** The table's bottom-right cell is the recurrence on the reversed
    strings: the table consumes prefixes, the recurrence first characters. *)
Lemma distance_lev_rev (s1 s2 : str) :
  distance s1 s2 = lev (rev s1) (rev s2).
Proof.
  unfold distance, table_last_row.
  rewrite first_row_lev, table_rows_lev, app_nil_r.
  unfold row_from. rewrite seq_S, List.map_app. cbn [map].
  rewrite List.last_last. cbn [app plus]. rewrite take_ge by lia. reflexivity.
Qed.

Lemma lev_sym (s t : str) : lev s t = lev t s.
Proof.
  revert t. induction s as [|a s IHs]; intros t.
  - rewrite lev_nil_r. reflexivity.
  - induction t as [|b t IHt].
    + reflexivity.
    + rewrite !lev_cons, IHt, (IHs (b :: t)), (IHs t).
      unfold min3, subst_cost. rewrite (N.eqb_sym b a). lia.
Qed.

Lemma distance_nil_l (s : str) : distance [] s = length s.
Proof. rewrite distance_lev_rev. cbn [rev lev]. apply length_rev. Qed.

Lemma distance_sym (a b : str) : distance a b = distance b a.
Proof. rewrite !distance_lev_rev. apply lev_sym. Qed.

End TableFacts.

(** ** The recurrence is the least number of edits *)

Module ScriptFacts.

Import Levenshtein Reference TableFacts.

Lemma subst_cost_same (a : codepoint) : subst_cost a a = 0.
Proof. unfold subst_cost. rewrite N.eqb_refl. reflexivity. Qed.

Lemma subst_cost_le (a b : codepoint) : subst_cost a b ≤ 1.
Proof. unfold subst_cost. destruct (a =? b)%N; lia. Qed.

(** *** Chains of edits *)

Lemma edit_cons (c : codepoint) (s t : str) :
  edit s t → edit (c :: s) (c :: t).
Proof.
  intros [p q x|p q x|p q x y Hxy].
  - apply (edit_insert (c :: p)).
  - apply (edit_delete (c :: p)).
  - apply (edit_substitute (c :: p)); exact Hxy.
Qed.

Lemma edit_rev (s t : str) : edit s t → edit (rev s) (rev t).
Proof.
  intros [p q x|p q x|p q x y Hxy];
    rewrite !rev_app_distr; cbn [rev]; rewrite <- !app_assoc; cbn [app].
  - apply edit_insert.
  - apply edit_delete.
  - apply edit_substitute; exact Hxy.
Qed.

Lemma transforms_trans (n m : nat) (s t u : str) :
  transforms n s t → transforms m t u → transforms (n + m) s u.
Proof.
  intros Hst Htu. induction Htu as [t|m t u v _ IH Huv].
  - rewrite Nat.add_0_r. exact Hst.
  - rewrite Nat.add_succ_r. eapply transforms_step; [apply IH; exact Hst|exact Huv].
Qed.

Lemma transforms_one (s t : str) : edit s t → transforms 1 s t.
Proof. intros H. eapply transforms_step; [apply transforms_refl|exact H]. Qed.

Lemma transforms_cons (c : codepoint) (n : nat) (s t : str) :
  transforms n s t → transforms n (c :: s) (c :: t).
Proof.
  induction 1 as [s|n s t u _ IH Htu]; [apply transforms_refl|].
  eapply transforms_step; [exact IH|apply edit_cons; exact Htu].
Qed.

Lemma transforms_rev (n : nat) (s t : str) :
  transforms n s t → transforms n (rev s) (rev t).
Proof.
  induction 1 as [s|n s t u _ IH Htu]; [apply transforms_refl|].
  eapply transforms_step; [exact IH|apply edit_rev; exact Htu].
Qed.

Lemma transforms_insert_all (t : str) : transforms (length t) [] t.
Proof.
  induction t as [|b t IH]; [apply transforms_refl|].
  cbn [length]. eapply transforms_step; [exact IH|apply (edit_insert [])].
Qed.

Lemma transforms_delete_all (s : str) : transforms (length s) s [].
Proof.
  induction s as [|a s IH]; [apply transforms_refl|].
  change (length (a :: s)) with (1 + length s).
  eapply transforms_trans; [|exact IH].
  apply transforms_one, (edit_delete []).
Qed.

(** Some chain of [lev s t] edits turns [s] into [t]. *)
Lemma transforms_lev (s t : str) : transforms (lev s t) s t.
Proof.
  revert t. induction s as [|a s IHs]; intros t.
  - apply transforms_insert_all.
  - induction t as [|b t IHt].
    + rewrite lev_nil_r. apply transforms_delete_all.
    + rewrite lev_cons.
      set (x := S (lev s (b :: t))). set (y := S (lev (a :: s) t)).
      set (z := lev s t + subst_cost a b).
      assert (Hmin : min3 x y z = x ∨ min3 x y z = y ∨ min3 x y z = z)
        by (unfold min3; lia).
      destruct Hmin as [-> | [-> | ->]]; subst x y z.
      * change (S (lev s (b :: t))) with (1 + lev s (b :: t)).
        eapply transforms_trans; [|apply IHs].
        apply transforms_one, (edit_delete []).
      * eapply transforms_step; [exact IHt|apply (edit_insert [])].
      * pose proof (transforms_cons a _ _ _ (IHs t)) as Hkeep.
        unfold subst_cost. destruct (a =? b)%N eqn:E.
        -- apply N.eqb_eq in E. subst b. rewrite Nat.add_0_r. exact Hkeep.
        -- apply N.eqb_neq in E. rewrite Nat.add_1_r.
           eapply transforms_step; [exact Hkeep|].
           apply (edit_substitute []); exact E.
Qed.

(** *** Alignments *)

Lemma aligned_lev (s t : str) (n : nat) : aligned s t n → lev s t ≤ n.
Proof.
  induction 1 as [|a b s t n _ IH|b s t n _ IH|a s t n _ IH].
  - reflexivity.
  - rewrite lev_cons. unfold min3. lia.
  - destruct s as [|a s]; [cbn [lev length] in *; lia|].
    rewrite lev_cons. unfold min3. lia.
  - destruct t as [|b t]; [rewrite lev_nil_r in *; cbn [length]; lia|].
    rewrite lev_cons. unfold min3. lia.
Qed.

Lemma aligned_refl (s : str) : aligned s s 0.
Proof.
  induction s as [|a s IH]; [constructor|].
  pose proof (aligned_pair a a _ _ _ IH) as H.
  rewrite subst_cost_same in H. exact H.
Qed.

(** Where an edit takes place: at the head of the string, or further on. *)
Lemma edit_inv (s t : str) :
  edit s t →
  (∃ y, t = y :: s) ∨
  (∃ x, s = x :: t) ∨
  (∃ x y r, s = x :: r ∧ t = y :: r) ∨
  (∃ x r r', s = x :: r ∧ t = x :: r' ∧ edit r r').
Proof.
  intros [p q c|p q c|p q c c' Hc]; destruct p as [|x p]; cbn [app].
  - left. eauto.
  - do 3 right. exists x, (p ++ q), (p ++ c :: q). auto using edit_insert.
  - right; left. eauto.
  - do 3 right. exists x, (p ++ c :: q), (p ++ q). auto using edit_delete.
  - right; right; left. eauto.
  - do 3 right. exists x, (p ++ c :: q), (p ++ c' :: q).
    auto using edit_substitute.
Qed.

(** One more edit of the target costs an alignment at most one more. *)
Lemma aligned_edit (s t : str) (n : nat) :
  aligned s t n → ∀ u, edit t u → ∃ m, m ≤ S n ∧ aligned s u m.
Proof.
  induction 1 as [|a b s t n Hst IH|b s t n Hst IH|a s t n Hst IH];
    intros u Hu.
  - apply edit_inv in Hu
      as [(y & ->)|[(x & Hx)|[(x & y & r & Hx & _)|(x & r & r' & Hx & _)]]];
      try discriminate.
    exists 1. split; [lia|]. apply aligned_insert, aligned_nil.
  - pose proof (subst_cost_le a b) as Hab.
    apply edit_inv in Hu
      as [(y & ->)|[(x & Hx)|[(x & y & r & Hx & ->)|(x & r & r' & Hx & -> & Hr)]]].
    + exists (S (n + subst_cost a b)). split; [lia|].
      apply aligned_insert, aligned_pair, Hst.
    + injection Hx as -> ->. exists (S n). split; [lia|].
      apply aligned_delete, Hst.
    + injection Hx as -> ->. exists (n + subst_cost a y).
      pose proof (subst_cost_le a y). split; [lia|].
      apply aligned_pair, Hst.
    + injection Hx as -> ->. destruct (IH _ Hr) as (m & Hm & Hal).
      exists (m + subst_cost a x). split; [lia|]. apply aligned_pair, Hal.
  - apply edit_inv in Hu
      as [(y & ->)|[(x & Hx)|[(x & y & r & Hx & ->)|(x & r & r' & Hx & -> & Hr)]]].
    + exists (S (S n)). split; [lia|]. apply aligned_insert, aligned_insert, Hst.
    + injection Hx as -> ->. exists n. split; [lia|]. exact Hst.
    + injection Hx as -> ->. exists (S n). split; [lia|].
      apply aligned_insert, Hst.
    + injection Hx as -> ->. destruct (IH _ Hr) as (m & Hm & Hal).
      exists (S m). split; [lia|]. apply aligned_insert, Hal.
  - destruct (IH _ Hu) as (m & Hm & Hal).
    exists (S m). split; [lia|]. apply aligned_delete, Hal.
Qed.

Lemma transforms_aligned (n : nat) (s t : str) :
  transforms n s t → ∃ m, m ≤ n ∧ aligned s t m.
Proof.
  induction 1 as [s|n s t u _ (m & Hm & Hal) Htu].
  - exists 0. split; [lia|apply aligned_refl].
  - destruct (aligned_edit _ _ _ Hal _ Htu) as (m' & Hm' & Hal').
    exists m'. split; [lia|exact Hal'].
Qed.

(** No chain of edits from [s] to [t] is shorter than [lev s t]. *)
Lemma transforms_lev_le (n : nat) (s t : str) :
  transforms n s t → lev s t ≤ n.
Proof.
  intros H. destruct (transforms_aligned _ _ _ H) as (m & Hm & Hal).
  apply aligned_lev in Hal. lia.
Qed.

Lemma lev_rev_le (s t : str) : lev (rev s) (rev t) ≤ lev s t.
Proof. apply transforms_lev_le, transforms_rev, transforms_lev. Qed.

Lemma lev_rev (s t : str) : lev (rev s) (rev t) = lev s t.
Proof.
  apply Nat.le_antisymm; [apply lev_rev_le|].
  rewrite <- (rev_involutive s), <- (rev_involutive t) at 1.
  apply lev_rev_le.
Qed.

(** The table's answer is the recurrence's. *)
Lemma distance_lev (s t : str) : distance s t = lev s t.
Proof. rewrite distance_lev_rev. apply lev_rev. Qed.

End ScriptFacts.

(** ** Properties of the edit distance *)

Section DistanceFacts.

Import Levenshtein Reference TableFacts ScriptFacts.

(** The distance obeys the triangle inequality: chains of edits compose. *)
Lemma distance_triangle (a b c : str) :
  distance a c ≤ distance a b + distance b c.
Proof.
  rewrite !distance_lev.
  apply transforms_lev_le.
  eapply transforms_trans; apply transforms_lev.
Qed.

Lemma distance_here (s : str) : distance s s = 0.
Proof.
  rewrite distance_lev. pose proof (transforms_lev_le 0 s s (transforms_refl s)).
  lia.
Qed.

End DistanceFacts.

(** C6: the distance is the Levenshtein distance.  Some chain of
    [distance a b] single-character insertions, deletions and substitutions
    turns [a] into [b], no chain does it in fewer, and the value is the one
    the textbook recurrence gives.  The unit is the code point and nothing
    is normalised: a change of case is one substitution, a precomposed
    letter and its decomposed spelling are two edits apart, and a dropped
    vowel sign is one deletion. *)
Theorem distance_is_levenshtein :
  (∀ a b : str,
     Reference.transforms (Levenshtein.distance a b) a b ∧
     (∀ n, Reference.transforms n a b → Levenshtein.distance a b ≤ n) ∧
     Levenshtein.distance a b = Reference.lev a b) ∧
  Levenshtein.distance [65]%N [97]%N = 1 ∧
  Levenshtein.distance [233]%N [101; 769]%N = 2 ∧
  Levenshtein.distance [2325; 2366; 2350]%N [2325; 2350]%N = 1.
Proof.
  split; [|repeat split; reflexivity].
  intros a b. rewrite ScriptFacts.distance_lev. split; [|split].
  - apply ScriptFacts.transforms_lev.
  - intros n. apply ScriptFacts.transforms_lev_le.
  - reflexivity.
Qed.

(** One insertion turns "कम" into "काम", so their distance is at most 1. *)
Lemma distance_is_levenshtein_witness :
  Reference.transforms 1 [2325; 2350]%N [2325; 2366; 2350]%N ∧
  Levenshtein.distance [2325; 2350]%N [2325; 2366; 2350]%N ≤ 1.
Proof.
  assert (H : Reference.transforms 1 [2325; 2350]%N [2325; 2366; 2350]%N).
  { eapply Reference.transforms_step; [apply Reference.transforms_refl|].
    apply (Reference.edit_insert [2325]%N [2350]%N 2366%N). }
  split; [exact H|].
  exact (proj1 (proj2 (proj1 distance_is_levenshtein _ _)) 1 H).
Defined.

(** C7: the distance is symmetric. *)
Theorem distance_symmetric (a b : str) :
  Levenshtein.distance a b = Levenshtein.distance b a.
Proof. apply TableFacts.distance_sym. Qed.

(** C8: the distance from the empty string to [s] is the length of [s]. *)
Theorem distance_empty_length (s : str) :
  Levenshtein.distance [] s = length s.
Proof. apply TableFacts.distance_nil_l. Qed.

(** ** The hard-coded dictionary *)

Lemma CORRECT_WORDS_elem_of (v : str) :
  v ∈ CORRECT_WORDS →
  v ∈ HINDI_CORE_WORDS_literal ++ CODE_SWITCHED_WORDS_literal.
Proof.
  unfold CORRECT_WORDS, HINDI_CORE_WORDS, CODE_SWITCHED_WORDS.
  rewrite elem_of_union, !elem_of_list_to_set, elem_of_app. tauto.
Qed.

Lemma CORRECT_WORDS_lengths :
  Forall (λ v : str, 2 ≤ length v)
         (HINDI_CORE_WORDS_literal ++ CODE_SWITCHED_WORDS_literal).
Proof. repeat constructor. Qed.

(** C10: the empty token against the hard-coded dictionary.  It is not a
    member, every entry has at least two code points, so the scan finds no
    entry within distance 1 of it, and the label is [IncorrectSpelling]. *)
Theorem classify_empty_token_incorrect (traversal : gset str → list str) :
  iteration_order traversal →
  ([] : str) ∉ CORRECT_WORDS ∧
  (∀ v : str, v ∈ CORRECT_WORDS → 2 ≤ length v) ∧
  value (hasNeighborWithinDistance Levenshtein.distance traversal [] 1)
        CORRECT_WORDS = false ∧
  value (classify_word Levenshtein.distance traversal []) CORRECT_WORDS
    = IncorrectSpelling.
Proof.
  intros Hord.
  assert (Hlen : ∀ v : str, v ∈ CORRECT_WORDS → 2 ≤ length v).
  { intros v Hv. apply CORRECT_WORDS_elem_of in Hv.
    exact (proj1 (Forall_forall _ _) CORRECT_WORDS_lengths v Hv). }
  assert (Hnin : ([] : str) ∉ CORRECT_WORDS).
  { intros Hin. apply Hlen in Hin. cbn [length] in Hin. lia. }
  split; [exact Hnin|]. split; [exact Hlen|]. split.
  - unfold value. rewrite hasNeighborWithinDistance_run. cbn [fst].
    apply not_true_is_false. intros Htrue.
    apply typo_loop_true in Htrue as [H|(v & Hv & Hd)]; [discriminate H|].
    apply (iteration_order_elem_of traversal Hord) in Hv.
    apply Hlen in Hv. rewrite TableFacts.distance_nil_l in Hd. lia.
  - unfold value. rewrite classify_word_run. cbn [fst].
    rewrite bool_decide_eq_false_2 by exact Hnin. reflexivity.
Qed.

(** The same with the members visited in the order of [elements]. *)
Lemma classify_empty_token_incorrect_witness :
  value (classify_word Levenshtein.distance elements []) CORRECT_WORDS
    = IncorrectSpelling.
Proof.
  apply (classify_empty_token_incorrect elements).
  intros V. reflexivity.
Defined.

(** ** Properties of the tokenizer *)

Section SplitFacts.

Variable isspace : codepoint → bool.

Local Abbreviation delimiter := (is_delimiter isspace).
Local Abbreviation pieces_of := (split_go isspace).

Lemma is_delimiter_isspace (c : codepoint) :
  delimiter c = false → isspace c = false.
Proof. unfold is_delimiter. intros H. apply orb_false_iff in H. tauto. Qed.

Lemma split_go_cons_keep (b : bool) (c : codepoint) (rest : str) :
  delimiter c = false →
  ∃ piece pieces,
    pieces_of false rest = piece :: pieces ∧
    pieces_of b (c :: rest) = (c :: piece) :: pieces.
Proof.
  intros Hc. cbn [split_go]. rewrite Hc.
  destruct (pieces_of false rest) as [|piece pieces] eqn:E.
  - exfalso. destruct rest as [|d rest]; [discriminate E|].
    cbn [split_go] in E.
    destruct (delimiter d); [discriminate E|].
    destruct (pieces_of false rest); discriminate E.
  - eauto.
Qed.

(** The pieces, put end to end, are the text without its delimiters. *)
Lemma split_go_concat (b : bool) (text : str) :
  concat (pieces_of b text) = filter (λ c, delimiter c = false) text.
Proof.
  revert b. induction text as [|c rest IH]; intros b; [reflexivity|].
  destruct (delimiter c) eqn:Hc.
  - rewrite filter_cons_False by congruence.
    cbn [split_go]. rewrite Hc.
    destruct b; cbn [concat app]; apply IH.
  - rewrite filter_cons_True by exact Hc.
    destruct (split_go_cons_keep b c rest Hc) as (piece & pieces & E & ->).
    cbn [concat app]. f_equal. rewrite <- (IH false), E. reflexivity.
Qed.

Lemma split_go_no_delimiter (b : bool) (text piece : str) :
  piece ∈ pieces_of b text → Forall (λ c, delimiter c = false) piece.
Proof.
  revert b piece. induction text as [|c rest IH]; intros b piece Hin.
  - cbn in Hin. apply list_elem_of_singleton in Hin as ->. constructor.
  - destruct (delimiter c) eqn:Hc.
    + cbn [split_go] in Hin. rewrite Hc in Hin. destruct b.
      * exact (IH _ _ Hin).
      * apply elem_of_cons in Hin as [->|Hin]; [constructor|exact (IH _ _ Hin)].
    + destruct (split_go_cons_keep b c rest Hc) as (p & ps & E & E').
      rewrite E' in Hin. apply elem_of_cons in Hin as [->|Hin].
      * constructor; [exact Hc|]. apply (IH false). rewrite E. left.
      * apply (IH false). rewrite E. right. exact Hin.
Qed.

Lemma lstrip_no_space (s : str) :
  Forall (λ c, isspace c = false) s → lstrip isspace s = s.
Proof. intros [|c rest Hc _]; [reflexivity|]. cbn. rewrite Hc. reflexivity. Qed.

Lemma strip_no_space (s : str) :
  Forall (λ c, isspace c = false) s → strip isspace s = s.
Proof.
  intros H. unfold strip, rstrip. rewrite (lstrip_no_space s H).
  rewrite lstrip_no_space, rev_involutive; [reflexivity|].
  apply Forall_forall. intros c Hc. apply list_elem_of_In, in_rev, list_elem_of_In in Hc.
  exact (proj1 (Forall_forall _ _) H c Hc).
Qed.

End SplitFacts.

Section VocabularyFacts.

Variable isspace : codepoint → bool.
Variable isdigit_char : codepoint → bool.

Local Abbreviation add_piece := (add_word isspace isdigit_char).
Local Abbreviation add_text := (add_text_words isspace isdigit_char).
Local Abbreviation pieces_in text :=
  (word_splitter_split isspace (remove_artifacts text)).

Lemma split_piece_strip (text piece : str) :
  piece ∈ word_splitter_split isspace text → strip isspace piece = piece.
Proof.
  intros Hin. apply strip_no_space.
  apply split_go_no_delimiter in Hin.
  eapply Forall_impl; [exact Hin|]. apply is_delimiter_isspace.
Qed.

Lemma add_word_elem (words : gset str) (piece w : str) :
  w ∈ add_piece words piece ↔
  w ∈ words ∨
  (strip isspace piece = w ∧ w ≠ [] ∧ isdigit isdigit_char w = false).
Proof.
  unfold add_word.
  destruct (decide (strip isspace piece = [])) as [E|E].
  - rewrite bool_decide_eq_true_2 by exact E. cbn [negb andb].
    split; [auto|]. intros [H|(H1 & H2 & _)]; [exact H|congruence].
  - rewrite bool_decide_eq_false_2 by exact E. cbn [negb andb].
    destruct (isdigit isdigit_char (strip isspace piece)) eqn:D; cbn [negb].
    + split; [auto|]. intros [H|(H1 & _ & H3)]; [exact H|]. congruence.
    + rewrite elem_of_union, elem_of_singleton. split.
      * intros [->|H]; [right|left]; auto.
      * intros [H|(H1 & _)]; [right|left]; auto.
Qed.

Lemma fold_add_word_elem (pieces : list str) (words : gset str) (w : str) :
  w ∈ fold_left add_piece pieces words ↔
  w ∈ words ∨
  ∃ piece, piece ∈ pieces ∧ strip isspace piece = w ∧ w ≠ [] ∧
           isdigit isdigit_char w = false.
Proof.
  revert words. induction pieces as [|p ps IH]; intros words; cbn [fold_left].
  - split; [auto|]. intros [H|(p & Hp & _)]; [exact H|].
    apply elem_of_nil in Hp. contradiction.
  - rewrite IH, add_word_elem. split.
    + intros [[H|H]|(q & Hq & H)]; [left; exact H| |].
      * right. exists p. split; [left|exact H].
      * right. exists q. split; [right; exact Hq|exact H].
    + intros [H|(q & Hq & H)]; [left; left; exact H|].
      apply elem_of_cons in Hq as [->|Hq]; [left; right; exact H|].
      right. exists q. split; assumption.
Qed.

Lemma add_text_words_elem (words : gset str) (text w : str) :
  w ∈ add_text words text ↔
  w ∈ words ∨
  (w ∈ pieces_in text ∧ w ≠ [] ∧ isdigit isdigit_char w = false).
Proof.
  unfold add_text_words. rewrite fold_add_word_elem. split.
  - intros [H|(p & Hp & Hs & H)]; [left; exact H|].
    rewrite (split_piece_strip _ _ Hp) in Hs. subst p. right. auto.
  - intros [H|(Hp & H)]; [left; exact H|].
    right. exists w. split; [exact Hp|]. split; [|exact H].
    exact (split_piece_strip _ _ Hp).
Qed.

Lemma fold_add_text_words_elem (texts : list str) (words : gset str) (w : str) :
  w ∈ fold_left add_text texts words ↔
  w ∈ words ∨
  ∃ text, text ∈ texts ∧ w ∈ pieces_in text ∧ w ≠ [] ∧
          isdigit isdigit_char w = false.
Proof.
  revert words. induction texts as [|t ts IH]; intros words; cbn [fold_left].
  - split; [auto|]. intros [H|(t & Ht & _)]; [exact H|].
    apply elem_of_nil in Ht. contradiction.
  - rewrite IH, add_text_words_elem. split.
    + intros [[H|H]|(u & Hu & H)]; [left; exact H| |].
      * right. exists t. split; [left|exact H].
      * right. exists u. split; [right; exact Hu|exact H].
    + intros [H|(u & Hu & H)]; [left; left; exact H|].
      apply elem_of_cons in Hu as [->|Hu]; [left; right; exact H|].
      right. exists u. split; assumption.
Qed.

Lemma vocabulary_elem (texts : list str) (w : str) :
  w ∈ get_unique_vocabulary isspace isdigit_char (Some texts) ↔
  ∃ text, text ∈ texts ∧ w ∈ pieces_in text ∧ w ≠ [] ∧
          isdigit isdigit_char w = false.
Proof.
  unfold get_unique_vocabulary. rewrite fold_add_text_words_elem. split.
  - intros [H|H]; [|exact H]. apply not_elem_of_empty in H. contradiction.
  - auto.
Qed.

Lemma vocabulary_words_invariant_aux (manifest : option (list str)) (w : str) :
  w ∈ get_unique_vocabulary isspace isdigit_char manifest →
  w ≠ [] ∧
  Forall (λ c, is_delimiter isspace c = false) w ∧
  isdigit isdigit_char w = false.
Proof.
  destruct manifest as [texts|].
  - intros Hin. apply vocabulary_elem in Hin as (text & _ & Hp & Hne & Hd).
    split; [exact Hne|]. split; [|exact Hd].
    exact (split_go_no_delimiter isspace false _ w Hp).
  - intros Hin. apply not_elem_of_empty in Hin. contradiction.
Qed.

End VocabularyFacts.

(** ** Properties of the removal of non-speech artifacts *)

Lemma closer_Some (c cl : codepoint) :
  closer c = Some cl →
  (c = 91 ∧ cl = 93 ∨ c = 40 ∧ cl = 41 ∨ c = 60 ∧ cl = 62)%N.
Proof.
  unfold closer. intros H.
  destruct (c =? 91)%N eqn:E1; [apply N.eqb_eq in E1; left; split; congruence|].
  destruct (c =? 40)%N eqn:E2;
    [apply N.eqb_eq in E2; right; left; split; congruence|].
  destruct (c =? 60)%N eqn:E3;
    [apply N.eqb_eq in E3; right; right; split; congruence|].
  discriminate H.
Qed.

Lemma closes_cons (cl c : codepoint) (rest : str) :
  closes cl (c :: rest) = false ↔ c ≠ cl ∧ (c = 10%N ∨ closes cl rest = false).
Proof.
  cbn [closes]. destruct (N.eqb_spec c cl) as [->|Hne].
  - split; [discriminate|]. intros [H _]. contradiction.
  - destruct (N.eqb_spec c 10) as [->|Hnl]; [tauto|].
    split; [auto|]. intros [_ [H|H]]; [contradiction|exact H].
Qed.

Lemma closes_cons_true (cl c : codepoint) (rest : str) :
  closes cl (c :: rest) = true → c ≠ cl → c ≠ 10%N ∧ closes cl rest = true.
Proof.
  cbn [closes]. intros H Hne.
  destruct (N.eqb_spec c cl) as [->|_]; [contradiction|].
  destruct (N.eqb_spec c 10) as [->|Hnl]; [discriminate H|]. auto.
Qed.

Lemma sub_go_no_opener (p rest : str) :
  Forall (λ c, closer c = None) p →
  sub_go None (p ++ rest) = p ++ sub_go None rest.
Proof.
  induction 1 as [|c p Hc _ IH]; [reflexivity|].
  cbn [app sub_go]. rewrite Hc, IH. reflexivity.
Qed.

Lemma sub_go_skip (cl : codepoint) (body rest : str) :
  Forall (λ c, c ≠ cl) body →
  sub_go (Some cl) (body ++ cl :: rest) = sub_go None rest.
Proof.
  induction 1 as [|c body Hc _ IH]; cbn [app sub_go].
  - rewrite N.eqb_refl. reflexivity.
  - apply N.eqb_neq in Hc. rewrite Hc. exact IH.
Qed.

Lemma closes_app (cl : codepoint) (body rest : str) :
  Forall (λ c, c ≠ 10%N) body → closes cl (body ++ cl :: rest) = true.
Proof.
  induction 1 as [|c body Hc _ IH]; cbn [app closes].
  - rewrite N.eqb_refl. reflexivity.
  - destruct (c =? cl)%N; [reflexivity|].
    apply N.eqb_neq in Hc. rewrite Hc. exact IH.
Qed.

Lemma awaited_None (text : str) : awaited None text.
Proof. intros close H. discriminate H. Qed.

Lemma awaited_opener (c close : codepoint) (rest : str) :
  closer c = Some close → closes close rest = true →
  awaited (Some close) rest.
Proof.
  intros Hc Hcl x [= <-]. split; [exact Hcl|].
  apply closer_Some in Hc. lia.
Qed.

Lemma awaited_next (close c : codepoint) (rest : str) :
  awaited (Some close) (c :: rest) → c ≠ close → awaited (Some close) rest.
Proof.
  intros Haw Hne x [= <-]. destruct (Haw close eq_refl) as [Hcl Hnl].
  split; [|exact Hnl]. exact (proj2 (closes_cons_true _ _ _ Hcl Hne)).
Qed.

(** The scan brings no closing bracket onto a line that had none. *)
Lemma closes_sub_go (cl : codepoint) (text : str) (st : option codepoint) :
  cl ≠ 32%N → awaited st text →
  closes cl text = false → closes cl (sub_go st text) = false.
Proof.
  intros Hsp. revert st. induction text as [|c rest IH]; intros st Haw Hcl;
    [reflexivity|].
  apply closes_cons in Hcl as [Hne Hrest]. cbn [sub_go].
  destruct st as [close|].
  - destruct (Haw close eq_refl) as [Hclose Hnl].
    destruct (N.eqb_spec c close) as [->|Hc].
    + destruct Hrest as [H|H]; [contradiction|].
      apply IH; [apply awaited_None|exact H].
    + destruct (closes_cons_true _ _ _ Hclose Hc) as [Hc10 _].
      destruct Hrest as [H|H]; [contradiction|].
      apply IH; [eapply awaited_next; eauto|exact H].
  - assert (Hcopy : closes cl (c :: sub_go None rest) = false).
    { apply closes_cons. split; [exact Hne|].
      destruct Hrest as [H|H]; [left; exact H|right].
      apply IH; [apply awaited_None|exact H]. }
    destruct (closer c) as [close|] eqn:Hclose; [|exact Hcopy].
    destruct (closes close rest) eqn:Hmatch; [|exact Hcopy].
    apply closes_cons. split; [congruence|]. right.
    assert (c ≠ 10%N) by (apply closer_Some in Hclose; lia).
    destruct Hrest as [H'|H']; [contradiction|].
    apply IH; [eapply awaited_opener; eauto|exact H'].
Qed.

Lemma settled_sub_go (text : str) (st : option codepoint) :
  awaited st text → settled (sub_go st text) = true.
Proof.
  revert st. induction text as [|c rest IH]; intros st Haw; [reflexivity|].
  cbn [sub_go]. destruct st as [close|].
  - destruct (N.eqb_spec c close) as [->|Hc].
    + apply IH, awaited_None.
    + apply IH. eapply awaited_next; eauto.
  - destruct (closer c) as [close|] eqn:Hclose.
    + destruct (closes close rest) eqn:Hmatch.
      * cbn [settled closer N.eqb Pos.eqb]. apply IH.
        eapply awaited_opener; eauto.
      * cbn [settled]. rewrite Hclose.
        rewrite closes_sub_go; [apply IH, awaited_None| |apply awaited_None|exact Hmatch].
        apply closer_Some in Hclose. lia.
    + cbn [settled]. rewrite Hclose. apply IH, awaited_None.
Qed.

Lemma settled_fixed (text : str) :
  settled text = true → sub_go None text = text.
Proof.
  induction text as [|c rest IH]; [reflexivity|].
  cbn [settled sub_go]. destruct (closer c) as [close|].
  - intros H. apply andb_true_iff in H as [H1 H2].
    apply negb_true_iff in H1. rewrite H1, (IH H2). reflexivity.
  - intros H. rewrite (IH H). reflexivity.
Qed.

Lemma sub_go_length (text : str) (st : option codepoint) :
  length (sub_go st text) ≤ length text.
Proof.
  revert st. induction text as [|c rest IH]; intros st; [reflexivity|].
  cbn [sub_go]. destruct st as [close|].
  - destruct (c =? close)%N; cbn [length];
      [specialize (IH None)|specialize (IH (Some close))]; lia.
  - destruct (closer c) as [close|]; [destruct (closes close rest)|];
      cbn [length];
      [specialize (IH (Some close))|specialize (IH None)|specialize (IH None)];
      lia.
Qed.

(** ** Properties of the classification loop *)

Section MainLoopFacts.

Variable distance : str → str → nat.
Variable traversal : gset str → list str.

Lemma label_eqb (V : gset str) (w : str) :
  String.eqb (lookup_label V w) "correct spelling" = bool_decide (w ∈ V).
Proof. unfold lookup_label. destruct (bool_decide (w ∈ V)); reflexivity. Qed.

(** What the loop returns: a row per word with the label of the lookup,
    the count raised by the words found in the set, and the set as it was. *)
Lemma main_loop_run (words : list str) (results : list (str * string))
    (count : nat) (V : gset str) :
  main_loop distance traversal words results count V =
    ((results ++ map (λ w, (w, lookup_label V w)) words,
      count + length (filter (λ w, w ∈ V) words)), V).
Proof.
  revert results count. induction words as [|w ws IH]; intros results count.
  - cbn. rewrite app_nil_r, Nat.add_0_r. reflexivity.
  - cbn [main_loop]. unfold mbind, Run_bind.
    rewrite classify_word_run. cbn [fst snd].
    fold (lookup_label V w). rewrite IH, label_eqb.
    rewrite <- app_assoc. cbn [map app].
    destruct (decide (w ∈ V)) as [Hin|Hnin].
    + rewrite bool_decide_eq_true_2, filter_cons_True by exact Hin.
      cbn [length]. do 2 f_equal. lia.
    + rewrite bool_decide_eq_false_2, filter_cons_False by exact Hnin.
      reflexivity.
Qed.

Lemma classify_vocabulary_run (words : list str) (V : gset str) :
  classify_vocabulary distance traversal words V =
    ((map (λ w, (w, lookup_label V w)) words,
      length (filter (λ w, w ∈ V) words)), V).
Proof. unfold classify_vocabulary. rewrite main_loop_run. reflexivity. Qed.

End MainLoopFacts.

Lemma correct_rows_length (V : gset str) (words : list str) :
  length (filter (λ row : str * string, row.2 = CorrectSpelling)
            (map (λ w, (w, lookup_label V w)) words)) =
  length (filter (λ w, w ∈ V) words).
Proof.
  induction words as [|w ws IH]; [reflexivity|]. cbn [map].
  unfold lookup_label at 1. destruct (decide (w ∈ V)) as [Hin|Hnin].
  - rewrite bool_decide_eq_true_2 by exact Hin.
    rewrite (filter_cons_True (λ row : str * string, row.2 = CorrectSpelling))
      by reflexivity.
    rewrite (filter_cons_True (λ w, w ∈ V)) by exact Hin.
    cbn [length]. rewrite IH. reflexivity.
  - rewrite bool_decide_eq_false_2 by exact Hnin.
    rewrite (filter_cons_False (λ row : str * string, row.2 = CorrectSpelling))
      by (cbn; discriminate).
    rewrite (filter_cons_False (λ w, w ∈ V)) by exact Hnin. exact IH.
Qed.

Lemma filter_elem_of_size (W V : gset str) (words : list str) :
  words ≡ₚ elements W →
  length (filter (λ w, w ∈ V) words) = size (W ∩ V).
Proof.
  intros Hperm.
  assert (Hnd : NoDup (filter (λ w, w ∈ V) words)).
  { apply NoDup_filter. rewrite Hperm. apply NoDup_elements. }
  rewrite <- (size_list_to_set (C:=gset str) _ Hnd). f_equal.
  apply set_eq. intros w.
  rewrite elem_of_list_to_set, list_elem_of_filter, elem_of_intersection.
  rewrite Hperm, elem_of_elements. tauto.
Qed.

Lemma CORRECT_WORDS_size : size CORRECT_WORDS = 43.
Proof. vm_compute. reflexivity. Qed.

(** ** Texts of plain words *)

Section JoinFacts.

Variable isspace : codepoint → bool.

Local Abbreviation delimiter := (is_delimiter isspace).
Local Abbreviation pieces_of := (split_go isspace).

Lemma split_go_word (b : bool) (w : str) :
  w ≠ [] → Forall (λ c, delimiter c = false) w → pieces_of b w = [w].
Proof.
  intros Hne Hw. revert b Hne. induction Hw as [|c w Hc Hw IH]; intros b Hne;
    [contradiction|].
  cbn [split_go]. rewrite Hc. destruct w as [|d w]; [reflexivity|].
  rewrite (IH false) by discriminate. reflexivity.
Qed.

Lemma split_go_word_delimiter_first (w : str) (d : codepoint) (rest : str) :
  Forall (λ c, delimiter c = false) w → delimiter d = true →
  pieces_of false (w ++ d :: rest) = w :: pieces_of true rest.
Proof.
  intros Hw Hd. induction Hw as [|c w Hc Hw IH]; cbn [app split_go].
  - rewrite Hd. reflexivity.
  - rewrite Hc, IH. reflexivity.
Qed.

Lemma split_go_word_delimiter (b : bool) (w : str) (d : codepoint) (rest : str) :
  w ≠ [] → Forall (λ c, delimiter c = false) w → delimiter d = true →
  pieces_of b (w ++ d :: rest) = w :: pieces_of true rest.
Proof.
  intros Hne Hw Hd. destruct Hw as [|c w Hc Hw]; [contradiction|].
  cbn [app split_go]. rewrite Hc.
  rewrite (split_go_word_delimiter_first w d rest Hw Hd). reflexivity.
Qed.

Lemma split_go_join_spaces (b : bool) (ws : list str) :
  isspace 32%N = true → ws ≠ [] →
  Forall (λ w, w ≠ [] ∧ Forall (λ c, delimiter c = false) w) ws →
  pieces_of b (join_spaces ws) = ws.
Proof.
  intros Hsp Hne Hws. revert b Hne.
  induction Hws as [|w ws [Hw1 Hw2] Hws IH]; intros b Hne; [contradiction|].
  destruct ws as [|w' ws].
  - cbn [join_spaces]. apply split_go_word; assumption.
  - change (join_spaces (w :: w' :: ws))
      with (w ++ 32%N :: join_spaces (w' :: ws)).
    rewrite split_go_word_delimiter; [|assumption|assumption|].
    + rewrite IH by discriminate. reflexivity.
    + unfold is_delimiter. rewrite Hsp. reflexivity.
Qed.

Lemma join_spaces_no_opener (ws : list str) :
  Forall (Forall (λ c, closer c = None)) ws →
  Forall (λ c, closer c = None) (join_spaces ws).
Proof.
  induction 1 as [|w ws Hw Hws IH]; [constructor|].
  destruct ws as [|w' ws]; [exact Hw|].
  change (join_spaces (w :: w' :: ws))
    with (w ++ 32%N :: join_spaces (w' :: ws)).
  apply Forall_app. split; [exact Hw|]. constructor; [reflexivity|exact IH].
Qed.

Lemma split_go_all_delimiters (b : bool) (text piece : str) :
  Forall (λ c, delimiter c = true) text →
  piece ∈ pieces_of b text → piece = [].
Proof.
  intros Hall. revert b. induction Hall as [|c text Hc _ IH]; intros b Hin.
  - cbn in Hin. apply list_elem_of_singleton in Hin. exact Hin.
  - cbn [split_go] in Hin. rewrite Hc in Hin. destruct b.
    + exact (IH _ Hin).
    + apply elem_of_cons in Hin as [->|Hin]; [reflexivity|exact (IH _ Hin)].
Qed.

End JoinFacts.

Lemma sub_go_Forall (P : codepoint → Prop) (text : str) (st : option codepoint) :
  P 32%N → Forall P text → Forall P (sub_go st text).
Proof.
  intros Hsp Hall. revert st. induction Hall as [|c text Hc _ IH]; intros st;
    [constructor|].
  cbn [sub_go]. destruct st as [close|].
  - destruct (c =? close)%N; apply IH.
  - destruct (closer c) as [close|]; [destruct (closes close text)|];
      constructor; auto.
Qed.

Lemma remove_artifacts_plain (text : str) :
  Forall (λ c, closer c = None) text → remove_artifacts text = text.
Proof.
  intros H. unfold remove_artifacts.
  rewrite <- (app_nil_r text) at 1. rewrite sub_go_no_opener by exact H.
  cbn [sub_go]. apply app_nil_r.
Qed.

(** ** Bounds on the edit distance *)

Section DistanceBounds.

Import Levenshtein Reference TableFacts ScriptFacts.

Lemma edit_length (s t : str) :
  edit s t → length s ≤ length t + 1 ∧ length t ≤ length s + 1.
Proof.
  intros [p q c|p q c|p q c c' _]; rewrite !length_app; cbn [length]; lia.
Qed.

Lemma transforms_length (n : nat) (s t : str) :
  transforms n s t → length s ≤ length t + n ∧ length t ≤ length s + n.
Proof.
  induction 1 as [s|n s t u _ IH Htu]; [lia|].
  apply edit_length in Htu. lia.
Qed.

Lemma transforms_0 (s t : str) : transforms 0 s t → s = t.
Proof. inversion 1. reflexivity. Qed.

Lemma lev_le_max (s t : str) : lev s t ≤ Nat.max (length s) (length t).
Proof.
  revert t. induction s as [|a s IH]; intros t; [cbn [lev length]; lia|].
  destruct t as [|b t]; [rewrite lev_nil_r; lia|].
  rewrite lev_cons. specialize (IH t). pose proof (subst_cost_le a b).
  unfold min3. cbn [length]. lia.
Qed.

End DistanceBounds.

(** ** The classification loop: what [main] writes out *)

(** X1: the loop of [main] writes one row per word, in the order the words
    come, the label of each row being decided by the dictionary lookup
    alone; the dictionary is left as it was. *)
Theorem main_rows_are_lookups
    (distance : str → str → nat) (traversal : gset str → list str)
    (words : list str) (V : gset str) :
  (value (classify_vocabulary distance traversal words) V).1 =
    map (λ w, (w, if bool_decide (w ∈ V)
                  then "correct spelling"%string
                  else "incorrect spelling"%string)) words ∧
  final_set (classify_vocabulary distance traversal words) V = V.
Proof.
  unfold value, final_set. rewrite classify_vocabulary_run. split; reflexivity.
Qed.

(** X2: the edit distance has no influence on what the program writes:
    with any two distance functions and any two iteration orders of the
    dictionary the rows and the count of correct words are the same. *)
Theorem main_output_ignores_distance
    (distance1 distance2 : str → str → nat)
    (traversal1 traversal2 : gset str → list str)
    (words : list str) (V : gset str) :
  classify_vocabulary distance1 traversal1 words V =
  classify_vocabulary distance2 traversal2 words V.
Proof. rewrite !classify_vocabulary_run. reflexivity. Qed.

(** X3: when the words are the members of a set [W], each once, the count
    of correct words is the number of members [W] shares with the
    dictionary. *)
Theorem correct_count_is_intersection
    (distance : str → str → nat) (traversal : gset str → list str)
    (W V : gset str) (words : list str) :
  words ≡ₚ elements W →
  (value (classify_vocabulary distance traversal words) V).2 = size (W ∩ V).
Proof.
  intros Hperm. unfold value. rewrite classify_vocabulary_run. cbn [fst snd].
  apply filter_elem_of_size, Hperm.
Qed.

Lemma correct_count_is_intersection_witness :
  let W : gset str := {[ [2325; 2366; 2350]%N; [2325; 2350]%N ]} in
  (value (classify_vocabulary Levenshtein.distance elements (elements W))
         CORRECT_WORDS).2 = size (W ∩ CORRECT_WORDS).
Proof.
  intros W.
  apply (correct_count_is_intersection Levenshtein.distance elements W).
  reflexivity.
Defined.

(** X4: against the hard-coded dictionary the count of correct words never
    exceeds 43, the number of its entries, however many words the manifest
    holds. *)
Theorem correct_count_at_most_43
    (distance : str → str → nat) (traversal : gset str → list str)
    (W : gset str) (words : list str) :
  words ≡ₚ elements W →
  (value (classify_vocabulary distance traversal words) CORRECT_WORDS).2 ≤ 43.
Proof.
  intros Hperm. unfold value. rewrite classify_vocabulary_run. cbn [fst snd].
  rewrite (filter_elem_of_size W CORRECT_WORDS words Hperm).
  rewrite <- CORRECT_WORDS_size. apply subseteq_size.
  apply intersection_subseteq_r.
Qed.

Lemma correct_count_at_most_43_witness :
  let W : gset str := {[ [2325; 2366; 2350]%N; [2325; 2350]%N ]} in
  (value (classify_vocabulary Levenshtein.distance elements (elements W))
         CORRECT_WORDS).2 ≤ 43.
Proof.
  intros W.
  apply (correct_count_at_most_43 Levenshtein.distance elements W).
  reflexivity.
Defined.

(** X5: the count of correct words that [main] prints is the number of rows
    labelled ["correct spelling"] in the table it writes. *)
Theorem correct_count_matches_rows
    (distance : str → str → nat) (traversal : gset str → list str)
    (words : list str) (V : gset str) :
  (value (classify_vocabulary distance traversal words) V).2 =
  length (filter (λ row : str * string, row.2 = "correct spelling"%string)
            (value (classify_vocabulary distance traversal words) V).1).
Proof.
  unfold value. rewrite classify_vocabulary_run. cbn [fst snd].
  symmetry. apply correct_rows_length.
Qed.

(** X6: the order in which the set of words is iterated only permutes the
    rows; the count of correct words does not depend on it. *)
Theorem main_order_insensitive
    (distance : str → str → nat) (traversal : gset str → list str)
    (words words' : list str) (V : gset str) :
  words ≡ₚ words' →
  (value (classify_vocabulary distance traversal words) V).1 ≡ₚ
    (value (classify_vocabulary distance traversal words') V).1 ∧
  (value (classify_vocabulary distance traversal words) V).2 =
    (value (classify_vocabulary distance traversal words') V).2.
Proof.
  intros Hperm. unfold value. rewrite !classify_vocabulary_run. cbn [fst snd].
  split.
  - apply Permutation_map, Hperm.
  - apply Permutation_length. rewrite Hperm. reflexivity.
Qed.

Lemma main_order_insensitive_witness :
  let a : str := [2325; 2366; 2350]%N in
  let b : str := [2325; 2350]%N in
  (value (classify_vocabulary Levenshtein.distance elements [a; b])
         CORRECT_WORDS).1 ≡ₚ
    (value (classify_vocabulary Levenshtein.distance elements [b; a])
           CORRECT_WORDS).1 ∧
  (value (classify_vocabulary Levenshtein.distance elements [a; b])
         CORRECT_WORDS).2 =
    (value (classify_vocabulary Levenshtein.distance elements [b; a])
           CORRECT_WORDS).2.
Proof.
  intros a b.
  apply (main_order_insensitive Levenshtein.distance elements [a; b] [b; a]).
  apply Permutation_swap.
Defined.

(** ** The tokenizer: what [get_unique_vocabulary] collects *)

(** X7: splitting loses nothing but the delimiters: the pieces of a text,
    put end to end, are the text with its delimiter characters removed. *)
Theorem split_keeps_all_but_delimiters
    (isspace : codepoint → bool) (text : str) :
  concat (word_splitter_split isspace text) =
  filter (λ c, is_delimiter isspace c = false) text.
Proof. apply split_go_concat. Qed.

(** X8: no piece of the split holds a delimiter, and so [strip()] changes
    none of them: the white space it would remove is already gone. *)
Theorem split_piece_strip_noop
    (isspace : codepoint → bool) (text piece : str) :
  piece ∈ word_splitter_split isspace text →
  Forall (λ c, is_delimiter isspace c = false) piece ∧
  strip isspace piece = piece.
Proof.
  intros Hin. split.
  - exact (split_go_no_delimiter isspace false text piece Hin).
  - exact (split_piece_strip isspace text piece Hin).
Qed.

(** The pieces of "a, b" with the space as the only white space. *)
Lemma split_piece_strip_noop_witness :
  Forall (λ c, is_delimiter (N.eqb 32) c = false) [98]%N ∧
  strip (N.eqb 32) [98]%N = [98]%N.
Proof.
  apply (split_piece_strip_noop (N.eqb 32) [97; 44; 32; 98]%N [98]%N).
  vm_compute. right. left.
Defined.



(** X10: every word of the vocabulary is non-empty, holds no delimiter
    (no white space and no punctuation of the splitter) and is not a
    number; a missing manifest gives no words at all. *)
Theorem vocabulary_words_invariant
    (isspace isdigit_char : codepoint → bool)
    (manifest : option (list str)) (w : str) :
  w ∈ get_unique_vocabulary isspace isdigit_char manifest →
  w ≠ [] ∧
  Forall (λ c, is_delimiter isspace c = false) w ∧
  isdigit isdigit_char w = false.
Proof. apply vocabulary_words_invariant_aux. Qed.

Lemma vocabulary_words_invariant_witness :
  let w : str := [97; 98]%N in
  w ≠ [] ∧
  Forall (λ c, is_delimiter (N.eqb 32) c = false) w ∧
  isdigit (λ c, (48 <=? c)%N && (c <=? 57)%N) w = false.
Proof.
  intros w.
  apply (vocabulary_words_invariant (N.eqb 32)
           (λ c, (48 <=? c)%N && (c <=? 57)%N)
           (Some [[97; 98; 32; 91; 120; 93; 32; 49; 50]%N])).
  apply vocabulary_elem.
  exists [97; 98; 32; 91; 120; 93; 32; 49; 50]%N.
  split; [left|]. split; [vm_compute; left|]. split; [discriminate|reflexivity].
Defined.

(** X11: the vocabulary does not depend on the order of the lines of the
    manifest, nor on how often a text occurs in it. *)
Theorem vocabulary_order_insensitive
    (isspace isdigit_char : codepoint → bool) (texts texts' : list str) :
  (∀ text, text ∈ texts ↔ text ∈ texts') →
  get_unique_vocabulary isspace isdigit_char (Some texts) =
  get_unique_vocabulary isspace isdigit_char (Some texts').
Proof.
  intros Hsame. apply set_eq. intros w. rewrite !vocabulary_elem.
  split; intros (text & Ht & H); exists text; (split; [apply Hsame, Ht|exact H]).
Qed.

Lemma vocabulary_order_insensitive_witness :
  get_unique_vocabulary (N.eqb 32) (λ c, (48 <=? c)%N && (c <=? 57)%N)
    (Some [[97]%N; [98]%N]) =
  get_unique_vocabulary (N.eqb 32) (λ c, (48 <=? c)%N && (c <=? 57)%N)
    (Some [[98]%N; [97]%N; [98]%N]).
Proof.
  apply vocabulary_order_insensitive.
  intros text. rewrite !elem_of_cons, !elem_of_nil. tauto.
Defined.

(** X12: a text of plain words separated by single spaces yields exactly
    those words: tokenizing undoes the joining. *)
Theorem tokenize_joined_words
    (isspace isdigit_char : codepoint → bool) (ws : list str) :
  isspace 32%N = true →
  Forall (plain_word isspace isdigit_char) ws →
  add_text_words isspace isdigit_char ∅ (join_spaces ws) = list_to_set ws.
Proof.
  intros Hsp Hplain.
  assert (Hclean : remove_artifacts (join_spaces ws) = join_spaces ws).
  { apply remove_artifacts_plain, join_spaces_no_opener.
    eapply Forall_impl; [exact Hplain|]. intros w (_ & Hw & _).
    eapply Forall_impl; [exact Hw|]. intros c [_ Hc]. exact Hc. }
  apply set_eq. intros w.
  rewrite add_text_words_elem, Hclean, elem_of_list_to_set.
  destruct ws as [|w0 ws].
  - cbn. rewrite list_elem_of_singleton, elem_of_nil.
    split; [|contradiction]. intros [H|(-> & H & _)]; [|congruence].
    apply not_elem_of_empty in H. contradiction.
  - unfold word_splitter_split. rewrite split_go_join_spaces; [|exact Hsp|discriminate|].
    + split.
      * intros [H|(H & _)]; [|exact H]. apply not_elem_of_empty in H. contradiction.
      * intros Hin. right. split; [exact Hin|].
        destruct (proj1 (Forall_forall _ _) Hplain w Hin) as (H1 & _ & H3). auto.
    + eapply Forall_impl; [exact Hplain|]. intros v (H1 & H2 & _).
      split; [exact H1|]. eapply Forall_impl; [exact H2|]. intros c [Hc _]. exact Hc.
Qed.

Lemma tokenize_joined_words_witness :
  add_text_words (N.eqb 32) (λ c, (48 <=? c)%N && (c <=? 57)%N) ∅
    (join_spaces [[2325; 2366; 2350]%N; [97; 49]%N]) =
  list_to_set [[2325; 2366; 2350]%N; [97; 49]%N].
Proof.
  apply tokenize_joined_words; [reflexivity|].
  repeat constructor; discriminate.
Defined.

(** X13: a text made of delimiters only, the empty text included, adds no
    word to the vocabulary. *)
Theorem delimiters_only_no_words
    (isspace isdigit_char : codepoint → bool) (words : gset str) (text : str) :
  isspace 32%N = true →
  Forall (λ c, is_delimiter isspace c = true) text →
  add_text_words isspace isdigit_char words text = words.
Proof.
  intros Hsp Hall. apply set_eq. intros w. rewrite add_text_words_elem.
  split; [|auto]. intros [H|(Hp & Hne & _)]; [exact H|].
  exfalso. apply Hne.
  apply (split_go_all_delimiters isspace false (remove_artifacts text)); [|exact Hp].
  apply sub_go_Forall; [|exact Hall].
  unfold is_delimiter. rewrite Hsp. reflexivity.
Qed.

(** The text " ... —" adds nothing. *)
Lemma delimiters_only_no_words_witness :
  add_text_words (N.eqb 32) (λ c, (48 <=? c)%N && (c <=? 57)%N)
    {[ [97]%N ]} [32; 46; 46; 46; 32; 8212]%N = {[ [97]%N ]}.
Proof.
  apply delimiters_only_no_words; [reflexivity|].
  repeat constructor.
Defined.

(** ** The removal of non-speech artifacts *)

(** X14: a text without any of the opening brackets [[], [(] and [<] goes
    through the removal unchanged. *)
Theorem remove_artifacts_without_brackets (text : str) :
  Forall (λ c, c ≠ 91%N ∧ c ≠ 40%N ∧ c ≠ 60%N) text →
  remove_artifacts text = text.
Proof.
  intros H. apply remove_artifacts_plain.
  eapply Forall_impl; [exact H|]. intros c (H1 & H2 & H3). unfold closer.
  apply N.eqb_neq in H1, H2, H3. rewrite H1, H2, H3. reflexivity.
Qed.

Lemma remove_artifacts_without_brackets_witness :
  remove_artifacts [2325; 2350; 32; 93; 41]%N = [2325; 2350; 32; 93; 41]%N.
Proof.
  apply remove_artifacts_without_brackets.
  repeat constructor; discriminate.
Defined.

(** X15: the first bracketed artifact of a text, whose body holds neither
    the closing bracket nor a line feed, is replaced by one space, body and
    brackets included; the removal then goes on behind it. *)
Theorem remove_artifacts_bracketed
    (opener close : codepoint) (before body after : str) :
  closer opener = Some close →
  Forall (λ c, closer c = None) before →
  Forall (λ c, c ≠ close ∧ c ≠ 10%N) body →
  remove_artifacts (before ++ opener :: body ++ close :: after) =
  before ++ 32%N :: remove_artifacts after.
Proof.
  intros Hop Hbefore Hbody. unfold remove_artifacts.
  rewrite sub_go_no_opener by exact Hbefore. f_equal.
  cbn [sub_go]. rewrite Hop, closes_app.
  - rewrite sub_go_skip; [reflexivity|].
    eapply Forall_impl; [exact Hbody|]. intros c [Hc _]. exact Hc.
  - eapply Forall_impl; [exact Hbody|]. intros c [_ Hc]. exact Hc.
Qed.

(** "ab[noise (x]cd" becomes "ab cd". *)
Lemma remove_artifacts_bracketed_witness :
  remove_artifacts
    ([97; 98] ++ 91 :: [110; 111; 105; 115; 101; 32; 40; 120] ++ 93 :: [99; 100])%N
  = ([97; 98] ++ 32 :: remove_artifacts [99; 100])%N.
Proof.
  apply remove_artifacts_bracketed.
  - reflexivity.
  - repeat constructor.
  - repeat constructor; discriminate.
Defined.

(** X16: the removal is idempotent: in its result no opening bracket is
    followed by its closing bracket on the same line, so a second pass
    finds nothing to remove. *)
Theorem remove_artifacts_idempotent (text : str) :
  settled (remove_artifacts text) = true ∧
  remove_artifacts (remove_artifacts text) = remove_artifacts text.
Proof.
  assert (H : settled (remove_artifacts text) = true)
    by apply settled_sub_go, awaited_None.
  split; [exact H|]. apply settled_fixed, H.
Qed.

(** X17: the removal never makes a text longer. *)
Theorem remove_artifacts_length (text : str) :
  length (remove_artifacts text) ≤ length text.
Proof. apply sub_go_length. Qed.

(** ** From the manifest to the table *)

(** X18: when [main] classifies the vocabulary of a manifest, the table has
    one row per word of the vocabulary and no word twice, and no row is for
    an empty word, a word holding a delimiter, or a number. *)
Theorem vocabulary_table_rows
    (isspace isdigit_char : codepoint → bool)
    (distance : str → str → nat) (traversal : gset str → list str)
    (manifest : option (list str)) (words : list str) (V : gset str) :
  words ≡ₚ elements (get_unique_vocabulary isspace isdigit_char manifest) →
  let rows := (value (classify_vocabulary distance traversal words) V).1 in
  length rows = size (get_unique_vocabulary isspace isdigit_char manifest) ∧
  NoDup (map fst rows) ∧
  ∀ w label, (w, label) ∈ rows →
    w ≠ [] ∧ Forall (λ c, is_delimiter isspace c = false) w ∧
    isdigit isdigit_char w = false.
Proof.
  intros Hperm rows. subst rows. unfold value.
  rewrite classify_vocabulary_run. cbn [fst].
  split; [|split].
  - rewrite length_map, Hperm. reflexivity.
  - rewrite List.map_map. cbn [fst]. rewrite List.map_id, Hperm.
    apply NoDup_elements.
  - intros w label Hin. apply list_elem_of_In, in_map_iff in Hin as (v & [= <- _] & Hv).
    apply list_elem_of_In in Hv. rewrite Hperm in Hv. apply elem_of_elements in Hv.
    exact (vocabulary_words_invariant_aux isspace isdigit_char manifest v Hv).
Qed.

(** The vocabulary of the one text "ab [x] 12", classified. *)
Lemma vocabulary_table_rows_witness :
  let manifest := Some [[97; 98; 32; 91; 120; 93; 32; 49; 50]%N] in
  let isspace := N.eqb 32 in
  let isdigit_char := λ c, ((48 <=? c) && (c <=? 57))%N in
  let vocabulary := get_unique_vocabulary isspace isdigit_char manifest in
  let rows :=
    (value (classify_vocabulary Levenshtein.distance elements
              (elements vocabulary)) CORRECT_WORDS).1 in
  length rows = size vocabulary ∧
  NoDup (map fst rows) ∧
  ∀ w label, (w, label) ∈ rows →
    w ≠ [] ∧ Forall (λ c, is_delimiter isspace c = false) w ∧
    isdigit isdigit_char w = false.
Proof.
  intros manifest isspace isdigit_char vocabulary.
  apply (vocabulary_table_rows isspace isdigit_char Levenshtein.distance
           elements manifest (elements vocabulary) CORRECT_WORDS).
  reflexivity.
Defined.

(** ** The edit distance as a metric *)

(** X19: the distance obeys the triangle inequality. *)
Theorem distance_triangle_inequality (a b c : str) :
  Levenshtein.distance a c ≤
  Levenshtein.distance a b + Levenshtein.distance b c.
Proof. apply distance_triangle. Qed.

(** X20: two strings are at distance 0 exactly when they are the same
    sequence of code points. *)
Theorem distance_zero_iff (a b : str) :
  Levenshtein.distance a b = 0 ↔ a = b.
Proof.
  split.
  - intros H. apply transforms_0. rewrite <- H, ScriptFacts.distance_lev.
    apply ScriptFacts.transforms_lev.
  - intros ->. apply distance_here.
Qed.

Lemma distance_zero_iff_witness :
  Levenshtein.distance [2325; 2350]%N [2325; 2350]%N = 0.
Proof.
  apply (proj2 (distance_zero_iff [2325; 2350]%N [2325; 2350]%N)).
  reflexivity.
Defined.

(** X21: the distance is at least the difference of the two lengths and at
    most the greater of them. *)
Theorem distance_length_bounds (a b : str) :
  length a ≤ length b + Levenshtein.distance a b ∧
  length b ≤ length a + Levenshtein.distance a b ∧
  Levenshtein.distance a b ≤ Nat.max (length a) (length b).
Proof.
  rewrite ScriptFacts.distance_lev.
  pose proof (transforms_length _ _ _ (ScriptFacts.transforms_lev a b)) as [H1 H2].
  pose proof (lev_le_max a b). lia.
Qed.

(** X22: when the scan of the dictionary reports a neighbour within the
    bound, the dictionary holds a word whose length differs from the
    token's by at most the bound: tokens much shorter or longer than every
    entry are never reported. *)
Theorem neighbour_length_window
    (traversal : gset str → list str) (t : str) (d : nat) (V : gset str) :
  iteration_order traversal →
  value (hasNeighborWithinDistance Levenshtein.distance traversal t d) V
    = true →
  ∃ v, v ∈ V ∧ length t ≤ length v + d ∧ length v ≤ length t + d.
Proof.
  intros Hord Htrue. unfold value in Htrue.
  rewrite hasNeighborWithinDistance_run in Htrue. cbn [fst] in Htrue.
  apply typo_loop_true in Htrue as [H|(v & Hv & Hd)]; [discriminate H|].
  exists v. split; [exact (proj1 (iteration_order_elem_of _ Hord V v) Hv)|].
  pose proof (transforms_length _ _ _ (ScriptFacts.transforms_lev t v)) as [H1 H2].
  rewrite <- ScriptFacts.distance_lev in H1, H2. lia.
Qed.

Lemma neighbour_length_window_witness :
  ∃ v : str, v ∈ ({[ [2325; 2366; 2350]%N ]} : gset str) ∧
    length [2325; 2350]%N ≤ length v + 1 ∧ length v ≤ length [2325; 2350]%N + 1.
Proof.
  apply (neighbour_length_window elements [2325; 2350]%N 1
           {[ [2325; 2366; 2350]%N ]}).
  - intros V. reflexivity.
  - vm_compute. reflexivity.
Defined.
